(** * Deploy-time region lookups: a shallow embedding of [deployTimeLookup]

    The TypeScript module embedded here (core/lib/private/region-lookup.ts)
    turns a per-region table of literal fact values into one deploy-time
    expression.  It has four functions:

      - [deployTimeLookup]  the entry point (the spec calls it "resolve"),
      - [ucfirst]           upper-cases the first character,
      - [tokenizedMap]      rewrites every value with the region and URL-suffix
                            tokens (the spec's "Pattern Tokenizer"),
      - [replaceAll]        [x.split(pat).join(replacement)].

    JavaScript strings are sequences of code units; they are modelled by
    Rocq's [string], one [ascii] per code unit.  A [Record<string, string>]
    is modelled by the list of its entries in enumeration order, the order
    in which [Object.entries] and [Object.values] yield them.  The construct
    tree is mutable state: the functions that touch it run in a small
    state-and-exception monad over the children of the stack. *)

From Stdlib Require Import Ascii List Arith Lia.
From Stdlib Require String.
From Equations Require Import Equations.
From stdpp Require Import gmap strings list.

Set Default Proof Using "Type".

(** ** JavaScript string built-ins *)

Module Js.

(** [dropPrefix pat x] is [Some post] exactly when [x = pat +:+ post]. *)
Fixpoint dropPrefix (pat x : string) : option string :=
  match pat, x with
  | EmptyString, _ => Some x
  | String a p, String b y => if Ascii.eqb a b then dropPrefix p y else None
  | String _ _, EmptyString => None
  end.

(** The step of [String.prototype.split]: find the smallest index at which
    [pat] occurs in [x] (StringIndexOf) and cut [x] there, returning the
    text before the occurrence and the text after it. *)
Fixpoint breakAt (pat x : string) {struct x} : option (string * string) :=
  match dropPrefix pat x with
  | Some post => Some (EmptyString, post)
  | None =>
      match x with
      | EmptyString => None
      | String c x' =>
          match breakAt pat x' with
          | Some (pre, post) => Some (String c pre, post)
          | None => None
          end
      end
  end.

Definition inspect {A : Type} (a : A) : { b : A | a = b } := exist _ a eq_refl.

Lemma dropPrefix_length pat x post :
  dropPrefix pat x = Some post →
  String.length x = String.length pat + String.length post.
Proof.
  revert x; induction pat as [|a p IH]; intros [|b y]; simpl; try congruence.
  - intros [= <-]. reflexivity.
  - intros [= <-]. reflexivity.
  - destruct (Ascii.eqb a b); [|congruence]. intros H. rewrite (IH _ H). reflexivity.
Qed.

Lemma breakAt_length pat x pre post :
  breakAt pat x = Some (pre, post) →
  String.length x = String.length pre + String.length pat + String.length post.
Proof.
  revert pre; induction x as [|c x IH]; intros pre; simpl.
  - destruct (dropPrefix pat EmptyString) eqn:E; [|congruence].
    intros [= <- <-]. apply dropPrefix_length in E. simpl in *. lia.
  - destruct (dropPrefix pat (String c x)) eqn:E.
    + intros [= <- <-]. apply dropPrefix_length in E. simpl in *. lia.
    + destruct (breakAt pat x) as [[p q]|] eqn:E2; [|congruence].
      intros [= <- <-]. specialize (IH _ eq_refl). simpl. lia.
Qed.

(** [split] with a non-empty separator: cut at the first occurrence, keep
    the text before it, and go on in the text after it.  The separator is
    never looked for inside text that was already cut off. *)
Equations? split_loop (sep : string) (str : string) : list string
  by wf (String.length str) lt :=
  split_loop EmptyString str := [str];
  split_loop (String a sep') str with inspect (breakAt (String a sep') str) := {
    | exist _ None _ => [str]
    | exist _ (Some (T, rest)) Heq => T :: split_loop (String a sep') rest
  }.
Proof.
  apply breakAt_length in Heq. simpl in Heq. lia.
Qed.

(** [x.split("")]: the code units of [x], each as a string of length one. *)
Fixpoint chars (x : string) : list string :=
  match x with
  | EmptyString => []
  | String c x' => String c EmptyString :: chars x'
  end.

(** [x.split(pat)] *)
Definition split (x pat : string) : list string :=
  match pat with
  | EmptyString => chars x
  | String _ _ => split_loop pat x
  end.

(** [l.join(sep)] *)
Definition join (l : list string) (sep : string) : string := String.concat sep l.

(** [x.includes(pat)] *)
Definition includes (x pat : string) : bool :=
  match breakAt pat x with Some _ => true | None => false end.

(** [x.substr(start, len)] and [x.substr(start)] *)
Definition substr (x : string) (start len : nat) : string := String.substring start len x.
Definition substr_from (x : string) (start : nat) : string :=
  String.substring start (String.length x - start) x.

Fixpoint map_units (f : ascii → ascii) (x : string) : string :=
  match x with
  | EmptyString => EmptyString
  | String c x' => String (f c) (map_units f x')
  end.

Definition in_range (lo hi : nat) (c : ascii) : bool :=
  (lo <=? nat_of_ascii c) && (nat_of_ascii c <=? hi).

Definition is_lower (c : ascii) : bool := in_range 97 122 c.
Definition is_upper (c : ascii) : bool := in_range 65 90 c.
Definition is_digit (c : ascii) : bool := in_range 48 57 c.

(** [x.toUpperCase()], on the letters a to z; other code units are kept. *)
Definition upper_unit (c : ascii) : ascii :=
  if is_lower c then ascii_of_nat (nat_of_ascii c - 32) else c.
Definition toUpperCase (x : string) : string := map_units upper_unit x.

(** The character class [[a-zA-Z0-9]]. *)
Definition is_alnum (c : ascii) : bool := is_lower c || is_upper c || is_digit c.

(** [x.replace(/[^a-zA-Z0-9]/g, r)] for a replacement [r] of one code unit. *)
Definition replace_non_alnum (x : string) (r : ascii) : string :=
  map_units (fun c => if is_alnum c then c else r) x.

End Js.

(** ** The construct tree *)

(** What a call returns: a string (literal text mixed with token markers),
    the deferred lookup produced by a table, or JavaScript's [undefined]. *)
Inductive Value : Type :=
  | Str (s : string)
  | FnFindInMap (mapName key1 key2 : string)
  | Undefined.

(** The exceptions of this module: the [Error] that [deployTimeLookup]
    throws itself, and the [TypeError] that the runtime raises when a
    member that is not a function is called. *)
Inductive JsError : Type :=
  | Error (message : string)
  | TypeError (message : string).

Inductive completion (A : Type) : Type :=
  | Return (a : A)
  | Throw (e : JsError).
Arguments Return {A} a.
Arguments Throw {A} e.

(** A child of the stack that is not a [CfnMapping].  The cast
    [as CfnMapping | undefined] is erased at run time, so what a call on
    such a child does depends on the members it happens to have:
    [other_setValue] says whether it has a callable [setValue] (taken to
    leave the tree alone), [other_findInMap] what its [findInMap] returns,
    if it has one. *)
Record OtherConstruct : Type := {
  other_setValue : bool;
  other_findInMap : option Value
}.

(** Modelled from the spec: the table construct ([CfnMapping], imported
    from '../cfn-mapping'; the class itself is not among the sources).  Its
    state is the two-level table [mapping[key1][key2] = value]; [setValue]
    sets one cell, overwriting any prior value, and [findInMap] returns the
    deferred lookup "table[identity][discriminator][rowKey]". *)
Inductive Construct : Type :=
  | CfnMappingC (mapping : gmap string (gmap string string))
  | OtherC (o : OtherConstruct).

(** Modelled from the spec: the output scope ([Stack], imported from
    '../stack', with the children of [stack.node]; not among the sources),
    as the list of its children with the name each is registered under, in
    creation order. *)
Definition Stack : Type := list (string * Construct).

Definition ids (stack : Stack) : list string := stack.*1.

Fixpoint tryFindChild (stack : Stack) (id : string) : option Construct :=
  match stack with
  | [] => None
  | (name, c) :: rest => if String.eqb name id then Some c else tryFindChild rest id
  end.

(** The object registered under [id] takes a new state. *)
Fixpoint updateChild (stack : Stack) (id : string) (c' : Construct) : Stack :=
  match stack with
  | [] => []
  | (name, c) :: rest =>
      if String.eqb name id then (name, c') :: rest
      else (name, c) :: updateChild rest id c'
  end.

(** Modelled from the spec: what [setValue] does to the cells of a table
    ("set the table cell, overwriting any prior value at that cell"). *)
Definition setCell (m : gmap string (gmap string string)) (key1 key2 value : string)
  : gmap string (gmap string string) :=
  <[key1 := <[key2 := value]> (default ∅ (m !! key1))]> m.

Definition cell (m : gmap string (gmap string string)) (key1 key2 : string) : option string :=
  m !! key1 ≫= λ row, row !! key2.

(** ** Computations over the tree *)

Definition M (A : Type) : Type := Stack → Stack * completion A.

Definition ret {A} (a : A) : M A := λ s, (s, Return a).
Definition throw {A} (e : JsError) : M A := λ s, (s, Throw e).
Definition bind {A B} (m : M A) (k : A → M B) : M B :=
  λ s, match m s with
       | (s', Return a) => k a s'
       | (s', Throw e) => (s', Throw e)
       end.

Declare Scope js_scope.
Delimit Scope js_scope with js.
Notation "x <- m ;; k" := (bind m (λ x, k))
  (at level 100, m at next level, right associativity) : js_scope.
Notation "m ;; k" := (bind m (λ _, k))
  (at level 100, right associativity) : js_scope.

(** [for (const e of entries) body(e)] *)
Fixpoint forOf {A} (entries : list A) (body : A → M unit) : M unit :=
  match entries with
  | [] => ret tt
  | e :: rest => (body e ;; forOf rest body)%js
  end.

(** An object reference to a child of the stack: the name it is registered
    under. *)
Definition Ref : Type := string.

(** Modelled from the spec: [stack.node.tryFindChild(id)], the child
    registered under [id] or undefined. *)
Definition node_tryFindChild (id : string) : M (option Ref) :=
  λ s, (s, Return (match tryFindChild s id with Some _ => Some id | None => None end)).

(** Modelled from the spec: [new CfnMapping(stack, id)], an empty table
    registered under [id] in the scope. *)
Definition new_CfnMapping (id : string) : M Ref :=
  λ s, (s ++ [(id, CfnMappingC ∅)], Return id).

(** Modelled from the spec: [mapping.setValue(key1, key2, value)].  On a
    child without that member the call is the runtime's TypeError. *)
Definition call_setValue (mapping : Ref) (key1 key2 value : string) : M unit :=
  λ s, match tryFindChild s mapping with
       | Some (CfnMappingC m) =>
           (updateChild s mapping (CfnMappingC (setCell m key1 key2 value)), Return tt)
       | Some (OtherC o) =>
           if other_setValue o then (s, Return tt)
           else (s, Throw (TypeError "mapping.setValue is not a function"))
       | None => (s, Throw (TypeError "Cannot read properties of undefined"))
       end.

(** Modelled from the spec: [mapping.findInMap(key1, key2)]. *)
Definition call_findInMap (mapping : Ref) (key1 key2 : string) : M Value :=
  λ s, match tryFindChild s mapping with
       | Some (CfnMappingC _) => (s, Return (FnFindInMap mapping key1 key2))
       | Some (OtherC o) =>
           match other_findInMap o with
           | Some v => (s, Return v)
           | None => (s, Throw (TypeError "mapping.findInMap is not a function"))
           end
       | None => (s, Throw (TypeError "Cannot read properties of undefined"))
       end.

(** ** region-lookup.ts *)

(** [Record<string, string>]: the entries in enumeration order.  The keys of
    an object are pairwise distinct. *)
Definition Object_entries (o : list (string * string)) : list (string * string) := o.
Definition Object_values (o : list (string * string)) : list string := o.*2.

(** [function replaceAll(x, pat, replacement)] *)
Definition replaceAll (x pat replacement : string) : string :=
  Js.join (Js.split x pat) replacement.

(** [function ucfirst(x)] *)
Definition ucfirst (x : string) : string :=
  Js.toUpperCase (Js.substr x 0 1) +:+ Js.substr_from x 1.

(** The destructuring
    [[factClass, factParam] = factName.includes(':') ? factName.split(':') : [factName, 'value']].
    When the name includes a colon the split has at least two parts
    ([JsFacts.includes_split]), so the last branch is never taken. *)
Definition factClassParam (factName : string) : string * string :=
  if Js.includes factName ":" then
    match Js.split factName ":" with
    | factClass :: factParam :: _ => (factClass, factParam)
    | _ => (factName, "value")
    end
  else (factName, "value").

Definition factClass (factName : string) : string := (factClassParam factName).1.
Definition factParam (factName : string) : string := (factClassParam factName).2.

(** [const mapId = `${ucfirst(factClass)}Map`] *)
Definition mapId (factName : string) : string := ucfirst (factClass factName) +:+ "Map".

(** [factParam.replace(/[^a-zA-Z0-9]/g, '_')] *)
Definition rowKey (factParam : string) : string := Js.replace_non_alnum factParam "_"%char.

(** [const factKey = factParam.replace(/[^a-zA-Z0-9]/g, '_')] *)
Definition factKey (factName : string) : string := rowKey (factParam factName).

Section RegionLookup.

(** What the module imports from other packages: the fact registry
    ([RegionInfo.get(region).domainSuffix], undefined when no fact is
    registered), the two tokens [Aws.REGION] and [Aws.URL_SUFFIX], and the
    context key [cxapi.TARGET_PARTITIONS]. *)
Variable domainSuffix : string → option string.
Variable Aws_REGION : string.
Variable Aws_URL_SUFFIX : string.
Variable TARGET_PARTITIONS : string.

(** The body of the loop of [tokenizedMap]: the tokenized form of the
    value of one region. *)
Definition tokenizedValue (region value : string) : string :=
  let tokenizedValue := value in
  let tokenizedValue :=
    match domainSuffix region with
    | Some (String a suffix) => replaceAll tokenizedValue (String a suffix) Aws_URL_SUFFIX
    | Some EmptyString | None => tokenizedValue
    end in
  replaceAll tokenizedValue region Aws_REGION.

(** [function tokenizedMap(regionMap)] *)
Definition tokenizedMap (regionMap : list (string * string)) : list (string * string) :=
  (λ '(region, value), (region, tokenizedValue region value)) <$> Object_entries regionMap.

Definition missingFactMessage (factName : string) : string :=
  "region-info: don't have any information for " +:+ factName +:+
  ". Use 'Fact.register' to provide values, or add partitions to the '" +:+
  TARGET_PARTITIONS +:+ "' context value.".

(** Lines 28 to 43 of [deployTimeLookup]: derive the table identity and
    the row key, find or create the table, set one cell per entry, and
    return the deferred lookup. *)
Definition materialize (factName : string) (lookupMap : list (string * string)) : M Value :=
  (let mapId := mapId factName in
   let factKey := factKey factName in
   found <- node_tryFindChild mapId ;;
   mapping <- match found with
              | Some mapping => ret mapping
              | None => new_CfnMapping mapId
              end ;;
   forOf (Object_entries lookupMap)
         (λ '(region, value), call_setValue mapping region factKey value) ;;
   call_findInMap mapping Aws_REGION factKey)%js.

(** [export function deployTimeLookup(stack, factName, lookupMap, defaultValue?)] *)
Definition deployTimeLookup (factName : string) (lookupMap : list (string * string))
    (defaultValue : option string) : M Value :=
  if length (Object_values lookupMap) =? 0 then
    match defaultValue with
    | None => throw (Error (missingFactMessage factName))
    | Some d => ret (Str d)
    end
  else
    let tokenizedValues := Object_values (tokenizedMap lookupMap) in
    if forallb (λ v, bool_decide (Some v = head tokenizedValues)) tokenizedValues then
      ret (match head tokenizedValues with Some v => Str v | None => Undefined end)
    else materialize factName lookupMap.

End RegionLookup.

(** * The vocabulary of the specification *)

(** [pat] occurs in [x] between [pre] and [post]. *)
Definition occurs_at (pat x pre post : string) : Prop := x = pre +:+ pat +:+ post.

Definition occurs (pat x : string) : Prop := ∃ pre post, occurs_at pat x pre post.

(** The occurrence of [pat] that follows [pre] is the first one of [x]. *)
Definition leftmost (pat x pre post : string) : Prop :=
  occurs_at pat x pre post ∧
  ∀ pre' post', occurs_at pat x pre' post' → String.length pre ≤ String.length pre'.

(** The substitution of section 4.1, in the spec's words: every
    non-overlapping literal occurrence of the concrete substring [pat] is
    replaced by [token].  Occurrences are taken from left to right, the next
    one is looked for after the end of the previous one, and the inserted
    token is never scanned. *)
Inductive Substituted (pat token : string) : string → string → Prop :=
  | Substituted_none x :
      ¬ occurs pat x → Substituted pat token x x
  | Substituted_occ x pre post y :
      leftmost pat x pre post →
      Substituted pat token post y →
      Substituted pat token x (pre +:+ token +:+ y).

Section TokenizerSpec.

Variable domainSuffix : string → option string.
Variable Aws_REGION : string.
Variable Aws_URL_SUFFIX : string.

(** The domain-suffix substitution of the Pattern Tokenizer, skipped for a
    key with no registered suffix or with an empty one. *)
Definition SuffixSubstituted (key value v : string) : Prop :=
  match domainSuffix key with
  | Some (String a suffix) => Substituted (String a suffix) Aws_URL_SUFFIX value v
  | Some EmptyString | None => v = value
  end.

(** The Pattern Tokenizer, in the spec's words: the domain-suffix
    substitution first, the region-code substitution on its result. *)
Definition Tokenized (key value y : string) : Prop :=
  ∃ v, SuffixSubstituted key value v ∧ Substituted key Aws_REGION v y.

End TokenizerSpec.

(** The characters a row key may contain. *)
Definition identifier_safe (c : ascii) : bool := Js.is_alnum c || Ascii.eqb c "_".

(** [s] occurs in [x] as a substring. *)
Definition contains (x s : string) : Prop := occurs s x.

(** A lookup map whose tokenized values are all equal to the first one: the
    test of the Collapse Detector, as a proposition. *)
Definition uniform (tokenize : string → string → string) (lookupMap : list (string * string)) : Prop :=
  match lookupMap with
  | [] => True
  | (key0, value0) :: _ =>
      ∀ key value, (key, value) ∈ lookupMap → tokenize key value = tokenize key0 value0
  end.

(** The cells of a table after the loop of [deployTimeLookup]: one cell set
    per entry, in the order of the entries. *)
Definition setCells (m : gmap string (gmap string string)) (factKey : string)
    (entries : list (string * string)) : gmap string (gmap string string) :=
  foldl (λ m '(region, value), setCell m region factKey value) m entries.

(** A well-formed scope registers at most one child under each name. *)
Definition well_formed (stack : Stack) : Prop := NoDup (ids stack).

(** The number of children of the scope registered under [id]. *)
Definition count_children (stack : Stack) (id : string) : nat :=
  length (filter (λ name, name = id) (ids stack)).

(** The child registered under [id] is a table whenever there is one. *)
Definition table_or_absent (stack : Stack) (id : string) : Prop :=
  ∀ c, tryFindChild stack id = Some c → ∃ m, c = CfnMappingC m.

(** The value that the loop of [deployTimeLookup] leaves in the cell of
    [key]: that of the last entry with this key, if there is one. *)
Fixpoint lastValue (key : string) (entries : list (string * string)) : option string :=
  match entries with
  | [] => None
  | (k, v) :: rest =>
      match lastValue key rest with
      | Some w => Some w
      | None => if String.eqb k key then Some v else None
      end
  end.

(** The first occurrence of [pat] in [x] follows [pre], and [pat] does not
    occur again in the rest [post]. *)
Definition occurs_first_and_last (pat x pre post : string) : Prop :=
  leftmost pat x pre post ∧ ¬ occurs pat post.

(** The value [value] of the key [key] follows the template
    "[a] key [b] suffix [c]": the domain suffix registered for the key is
    found once, after [a key b], and the key once, after [a].  The second
    search is made in the text that already holds the suffix token. *)
Definition follows_template (domainSuffix : string → option string) (Aws_URL_SUFFIX : string)
    (a b c key value : string) : Prop :=
  ∃ suffix, domainSuffix key = Some suffix ∧ suffix ≠ "" ∧ key ≠ "" ∧
    occurs_first_and_last suffix value (a +:+ key +:+ b) c ∧
    occurs_first_and_last key (a +:+ key +:+ b +:+ Aws_URL_SUFFIX +:+ c)
      a (b +:+ Aws_URL_SUFFIX +:+ c).

(** * role.ts *)

(** [const roleName = resourceName.split('/').pop()!] in
    [Role.fromRoleArn]: the last part of the split; [pop] gives undefined
    on an empty array. *)
Definition roleName (resourceName : string) : option string :=
  last (Js.split resourceName "/").

(** * A concrete environment for the examples

    The fact registry of test property 3 of the spec: every key has the
    domain suffix "example".  The tokens are written as the spec writes
    them. *)
Module Example.
Definition domainSuffix (region : string) : option string := Some "example".
Definition noSuffix (region : string) : option string := None.
Definition REGION : string := "<REGION>".
Definition URL_SUFFIX : string := "<SUFFIX>".
Definition TARGET_PARTITIONS : string := "@aws-cdk/core:target-partitions".

Definition tokenize : string → string → string :=
  tokenizedValue domainSuffix REGION URL_SUFFIX.
Definition resolve : string → list (string * string) → option string → M Value :=
  deployTimeLookup domainSuffix REGION URL_SUFFIX TARGET_PARTITIONS.

(** The lookup maps of test properties 3, 4 and 8 of the spec. *)
Definition services : list (string * string) :=
  [("a", "svc.a.example"); ("b", "svc.b.example")].
Definition urls : list (string * string) := [("a", "urlA"); ("b", "urlB")].
Definition urls' : list (string * string) := [("a", "urlC"); ("c", "urlD")].

(** A child that is not a table and has no member named [setValue]. *)
Definition plain : Construct :=
  OtherC {| other_setValue := false; other_findInMap := None |}.
(** A child that is not a table and has members of the two names. *)
Definition lookalike : Construct :=
  OtherC {| other_setValue := true; other_findInMap := Some (Str "not a table") |}.
End Example.

(** * Facts about the string built-ins *)

Module JsFacts.
Import Js.

Lemma app_nil_l s : "" +:+ s = s.
Proof. reflexivity. Qed.

Lemma app_cons a s t : String a s +:+ t = String a (s +:+ t).
Proof. reflexivity. Qed.

Lemma app_nil_r s : s +:+ "" = s.
Proof. induction s as [|a s IH]; [reflexivity|]. by rewrite app_cons, IH. Qed.

Lemma app_assoc s t u : (s +:+ t) +:+ u = s +:+ (t +:+ u).
Proof. induction s as [|a s IH]; [reflexivity|]. by rewrite !app_cons, IH. Qed.

Lemma length_app s t : String.length (s +:+ t) = String.length s + String.length t.
Proof. induction s as [|a s IH]; [reflexivity|]. rewrite app_cons. simpl. by rewrite IH. Qed.

Lemma app_inj_length s s' t t' :
  s +:+ t = s' +:+ t' → String.length s = String.length s' → s = s' ∧ t = t'.
Proof.
  revert s'; induction s as [|a s IH]; intros [|a' s'] H Hlen; try discriminate.
  - by rewrite !app_nil_l in H.
  - rewrite !app_cons in H. injection H as -> H. injection Hlen as Hlen.
    by destruct (IH _ H Hlen) as [-> ->].
Qed.

Lemma dropPrefix_spec pat x post : dropPrefix pat x = Some post ↔ x = pat +:+ post.
Proof.
  revert x; induction pat as [|a p IH]; intros x.
  - simpl. rewrite app_nil_l. split; [by intros [= ->] | by intros ->].
  - destruct x as [|b y]; simpl; rewrite app_cons; [split; discriminate|].
    destruct (Ascii.eqb_spec a b) as [->|Hne].
    + rewrite IH. split; [by intros -> | by intros [= ->]].
    + split; [discriminate | intros [= ? ?]; congruence].
Qed.

Lemma breakAt_Some pat x pre post :
  breakAt pat x = Some (pre, post) → x = pre +:+ pat +:+ post.
Proof.
  revert pre; induction x as [|c x IH]; intros pre; simpl.
  - destruct (dropPrefix pat "") eqn:E; [|discriminate].
    intros [= <- <-]. by apply dropPrefix_spec in E.
  - destruct (dropPrefix pat (String c x)) eqn:E.
    + intros [= <- <-]. by apply dropPrefix_spec in E.
    + destruct (breakAt pat x) as [[p q]|] eqn:E2; [|discriminate].
      intros [= <- <-]. rewrite app_cons. f_equal. by apply IH.
Qed.

(** [breakAt] finds an occurrence whenever there is one, and the one it
    finds starts no later than any other. *)
Lemma breakAt_complete pat x pre' post' :
  x = pre' +:+ pat +:+ post' →
  ∃ pre post, breakAt pat x = Some (pre, post) ∧ String.length pre ≤ String.length pre'.
Proof.
  revert pre'; induction x as [|c x IH]; intros pre' Hx; simpl.
  - destruct pre'; [|discriminate]. rewrite app_nil_l in Hx.
    apply dropPrefix_spec in Hx. rewrite Hx. exists "", post'. split; [done|simpl; lia].
  - destruct (dropPrefix pat (String c x)) eqn:E.
    + eexists _, _. split; [done|simpl; lia].
    + destruct pre' as [|c' pre'].
      * rewrite app_nil_l in Hx. apply dropPrefix_spec in Hx. congruence.
      * rewrite app_cons in Hx. injection Hx as -> Hx.
        destruct (IH _ Hx) as (pre & post & -> & Hle).
        eexists _, _. split; [done|simpl; lia].
Qed.

Lemma breakAt_None pat x pre' post' : breakAt pat x = None → x ≠ pre' +:+ pat +:+ post'.
Proof.
  intros HN Hx. destruct (breakAt_complete _ _ _ _ Hx) as (? & ? & ? & _). congruence.
Qed.

Lemma breakAt_leftmost pat x pre post pre' post' :
  breakAt pat x = Some (pre, post) → x = pre' +:+ pat +:+ post' →
  String.length pre ≤ String.length pre'.
Proof.
  intros HS Hx. destruct (breakAt_complete _ _ _ _ Hx) as (? & ? & ? & ?). congruence.
Qed.

(** The unfolding equation of the loop of [split]. *)
Lemma split_loop_step sep str :
  sep ≠ "" →
  split_loop sep str =
    match breakAt sep str with
    | None => [str]
    | Some (T, rest) => T :: split_loop sep rest
    end.
Proof.
  destruct sep as [|a sep']; [done|]. intros _.
  simp split_loop. unfold inspect.
  enough (∀ o (e : breakAt (String a sep') str = o),
    split_loop_unfold_clause_2 a sep' str (o ↾ e) =
    match o with
    | None => [str]
    | Some (T, rest) => T :: split_loop (String a sep') rest
    end) as H by apply H.
  intros [[T rest]|] e; by simp split_loop.
Qed.

Lemma split_nonempty x sep : sep ≠ "" → split x sep = split_loop sep x.
Proof. by destruct sep. Qed.

Lemma length_pos s : s ≠ "" → 0 < String.length s.
Proof. destruct s; [done|simpl; lia]. Qed.

Lemma split_loop_nonempty sep str : split_loop sep str ≠ [].
Proof.
  destruct sep as [|a sep']; [by simp split_loop|].
  rewrite split_loop_step by done. by destruct (breakAt _ _) as [[??]|].
Qed.

Lemma join_cons T l sep : l ≠ [] → join (T :: l) sep = T +:+ sep +:+ join l sep.
Proof. by destruct l. Qed.

Lemma includes_split x sep :
  sep ≠ "" → includes x sep = true → ∃ a b l, split x sep = a :: b :: l.
Proof.
  intros Hsep. unfold includes, split. destruct sep as [|c sep']; [done|].
  rewrite split_loop_step by done.
  destruct (breakAt _ x) as [[T rest]|]; [intros _|discriminate].
  destruct (split_loop (String c sep') rest) as [|b l] eqn:E.
  - by apply split_loop_nonempty in E.
  - by exists T, b, l.
Qed.

Lemma length_map_units f x : String.length (map_units f x) = String.length x.
Proof. induction x as [|c x IH]; simpl; congruence. Qed.

Lemma get_map_units f x i : String.get i (map_units f x) = f <$> String.get i x.
Proof.
  revert i; induction x as [|c x IH]; intros [|i]; simpl; auto.
Qed.

End JsFacts.

(** * [replaceAll] and the substitution of the specification *)

Section ReplaceAll.
Import Js JsFacts.

Variable pat : string.
Variable token : string.
Hypothesis pat_nonempty : pat ≠ "".

Lemma breakAt_leftmost_occ x pre post :
  breakAt pat x = Some (pre, post) → leftmost pat x pre post.
Proof.
  intros HS. split; [by apply breakAt_Some|].
  intros pre' post' Hocc. by eapply breakAt_leftmost.
Qed.

Lemma breakAt_shorter x pre post :
  breakAt pat x = Some (pre, post) → String.length post < String.length x.
Proof using pat_nonempty.
  intros HS. apply breakAt_length in HS.
  pose proof (length_pos _ pat_nonempty). lia.
Qed.

Lemma replaceAll_step x :
  replaceAll x pat token =
    match breakAt pat x with
    | None => x
    | Some (pre, post) => pre +:+ token +:+ replaceAll post pat token
    end.
Proof using pat_nonempty.
  unfold replaceAll. rewrite split_nonempty, (split_loop_step pat x) by done.
  destruct (breakAt pat x) as [[pre post]|]; [|done].
  rewrite split_nonempty by done. apply join_cons, split_loop_nonempty.
Qed.

(** The code's [split]/[join] replaces as the specification says. *)
Lemma replaceAll_Substituted x : Substituted pat token x (replaceAll x pat token).
Proof using pat_nonempty.
  remember (String.length x) as n eqn:Hn.
  revert x Hn. induction n as [n IH] using lt_wf_ind. intros x ->.
  rewrite replaceAll_step. destruct (breakAt pat x) as [[pre post]|] eqn:E.
  - apply (Substituted_occ _ _ x pre post); [by apply breakAt_leftmost_occ|].
    eapply IH; [|done]. by apply (breakAt_shorter x pre).
  - apply Substituted_none. intros (pre & post & Hocc). by eapply breakAt_None.
Qed.

Lemma leftmost_unique x pre post pre' post' :
  leftmost pat x pre post → leftmost pat x pre' post' → pre = pre' ∧ post = post'.
Proof.
  intros [H1 L1] [H2 L2].
  assert (String.length pre = String.length pre') as Hlen.
  { specialize (L1 _ _ H2). specialize (L2 _ _ H1). lia. }
  unfold occurs_at in *. subst x.
  destruct (app_inj_length _ _ _ _ H2 Hlen) as [-> H]. split; [done|].
  by apply (inj (String.app pat)) in H.
Qed.

(** The specification determines the result. *)
Lemma Substituted_functional x y y' :
  Substituted pat token x y → Substituted pat token x y' → y = y'.
Proof.
  intros H. revert y'. induction H as [x Hno | x pre post y Hl _ IH]; intros y' H'.
  - destruct H' as [x _ | x pre post y' [Hocc _] _]; [done|].
    destruct Hno. by exists pre, post.
  - destruct H' as [x Hno | x pre' post' y' Hl' Hrest]. 
    + destruct Hno. destruct Hl as [Hocc _]. by exists pre, post.
    + destruct (leftmost_unique _ _ _ _ _ Hl Hl') as [-> ->].
      by rewrite (IH _ Hrest).
Qed.

Lemma Substituted_iff x y : Substituted pat token x y ↔ y = replaceAll x pat token.
Proof using pat_nonempty.
  split.
  - intros H. eapply Substituted_functional; [done|]. apply replaceAll_Substituted.
  - intros ->. apply replaceAll_Substituted.
Qed.

End ReplaceAll.

(** No string is the result of substituting the empty substring: an
    occurrence is found at the start of whatever text is left. *)
Lemma Substituted_empty token x y : ¬ Substituted "" token x y.
Proof.
  intros H. induction H as [x Hno | x pre post y _ _ IH]; [|done].
  apply Hno. by exists "", x.
Qed.

(** With the empty separator, [split] yields the code units one by one, so
    [replaceAll] puts the replacement between every two of them. *)
Lemma replaceAll_empty_pat c x token :
  replaceAll (String c x) "" token =
    match x with
    | EmptyString => String c ""
    | String _ _ => String c "" +:+ token +:+ replaceAll x "" token
    end.
Proof. by destruct x. Qed.

(** * The children of the scope *)

Section Tree.
Implicit Types (stack : Stack) (id : string) (c : Construct).

Lemma tryFindChild_None stack id : tryFindChild stack id = None ↔ id ∉ ids stack.
Proof.
  unfold ids. induction stack as [|[name c] stack IH]; simpl.
  - split; [intros _; apply not_elem_of_nil | done].
  - rewrite not_elem_of_cons. destruct (String.eqb_spec name id) as [->|Hne].
    + split; [done | by intros [? _]].
    + rewrite IH. split; [by intros ?; split|by intros [_ ?]].
Qed.

Lemma tryFindChild_Some stack id c : tryFindChild stack id = Some c → id ∈ ids stack.
Proof.
  intros H. destruct (decide (id ∈ ids stack)) as [|Hn]; [done|].
  apply tryFindChild_None in Hn. congruence.
Qed.

Lemma tryFindChild_snoc stack id id' c :
  tryFindChild (stack ++ [(id, c)]) id' =
    match tryFindChild stack id' with
    | Some c' => Some c'
    | None => if String.eqb id id' then Some c else None
    end.
Proof.
  induction stack as [|[name c0] stack IH]; simpl; [done|].
  by destruct (String.eqb name id').
Qed.

Lemma ids_updateChild stack id c : ids (updateChild stack id c) = ids stack.
Proof.
  unfold ids. induction stack as [|[name c0] stack IH]; simpl; [done|].
  destruct (String.eqb name id); csimpl; [done | by rewrite IH].
Qed.

Lemma tryFindChild_updateChild_eq stack id c c' :
  tryFindChild stack id = Some c → tryFindChild (updateChild stack id c') id = Some c'.
Proof.
  induction stack as [|[name c0] stack IH]; simpl; [done|].
  destruct (String.eqb name id) eqn:E; simpl; rewrite E; auto.
Qed.

Lemma tryFindChild_updateChild_ne stack id id' c' :
  id' ≠ id → tryFindChild (updateChild stack id c') id' = tryFindChild stack id'.
Proof.
  intros Hne. induction stack as [|[name c0] stack IH]; simpl; [done|].
  destruct (String.eqb_spec name id) as [->|Hn]; simpl.
  - by destruct (String.eqb_spec id id').
  - by rewrite IH.
Qed.

Lemma updateChild_same stack id c : tryFindChild stack id = Some c → updateChild stack id c = stack.
Proof.
  induction stack as [|[name c0] stack IH]; simpl; [done|].
  destruct (String.eqb name id); [by intros [= ->] | intros H; by rewrite IH].
Qed.

Lemma updateChild_twice stack id c c' :
  updateChild (updateChild stack id c) id c' = updateChild stack id c'.
Proof.
  induction stack as [|[name c0] stack IH]; simpl; [done|].
  destruct (String.eqb name id) eqn:E; simpl; rewrite E; [done | by rewrite IH].
Qed.

Lemma updateChild_snoc stack id c c' :
  tryFindChild stack id = None →
  updateChild (stack ++ [(id, c)]) id c' = stack ++ [(id, c')].
Proof.
  induction stack as [|[name c0] stack IH]; simpl.
  - by rewrite String.eqb_refl.
  - destruct (String.eqb name id); [done | intros H; by rewrite IH].
Qed.

Lemma filter_eq_absent (l : list string) id : id ∉ l → filter (λ name, name = id) l = [].
Proof.
  induction l as [|x l IH]; [done|]. rewrite not_elem_of_cons. intros [Hne Hl].
  rewrite filter_cons_False by congruence. by apply IH.
Qed.

Lemma count_children_le_1 stack id : well_formed stack → count_children stack id ≤ 1.
Proof.
  unfold well_formed, count_children. generalize (ids stack) as l.
  induction l as [|x l IH]; intros Hnd; [simpl; lia|].
  apply NoDup_cons in Hnd as [Hx Hnd]. rewrite filter_cons.
  destruct (decide (x = id)) as [->|]; [|by apply IH].
  rewrite filter_eq_absent by done. simpl. lia.
Qed.

Lemma count_children_ge_1 stack id c : tryFindChild stack id = Some c → 1 ≤ count_children stack id.
Proof.
  intros H%tryFindChild_Some. unfold count_children.
  destruct (filter _ (ids stack)) eqn:E; [|simpl; lia].
  by destruct (filter_nil_not_elem_of _ _ id E).
Qed.

(** ** The cells of a table *)

Lemma cell_setCell_eq m key1 key2 value : cell (setCell m key1 key2 value) key1 key2 = Some value.
Proof. unfold cell, setCell. rewrite lookup_insert_eq. simpl. by rewrite lookup_insert_eq. Qed.

Lemma cell_setCell_ne m key1 key2 value key1' key2' :
  key1 ≠ key1' ∨ key2 ≠ key2' →
  cell (setCell m key1 key2 value) key1' key2' = cell m key1' key2'.
Proof.
  intros H. unfold cell, setCell. destruct (decide (key1 = key1')) as [->|Hne].
  - rewrite lookup_insert_eq. simpl. destruct H as [|H]; [done|].
    rewrite lookup_insert_ne by done. by destruct (m !! key1').
  - by rewrite lookup_insert_ne.
Qed.

End Tree.

(** * The three cases of the table path *)

Section Materialize.
Implicit Types (stack : Stack) (id : string) (entries lookupMap : list (string * string)).

Variable Aws_REGION : string.

Lemma forOf_setValue_table stack id factKey entries m :
  tryFindChild stack id = Some (CfnMappingC m) →
  forOf entries (λ '(region, value), call_setValue id region factKey value) stack =
    (updateChild stack id (CfnMappingC (setCells m factKey entries)), Return tt).
Proof.
  revert stack m; induction entries as [|[region value] entries IH]; intros stack m H; simpl.
  - unfold ret. by rewrite updateChild_same.
  - unfold bind, call_setValue at 1. rewrite H.
    rewrite (IH _ (setCell m region factKey value))
      by (by eapply tryFindChild_updateChild_eq).
    by rewrite updateChild_twice.
Qed.

Lemma forOf_setValue_other stack id factKey entries o :
  tryFindChild stack id = Some (OtherC o) →
  forOf entries (λ '(region, value), call_setValue id region factKey value) stack =
    (stack,
     if other_setValue o then Return tt
     else match entries with
          | [] => Return tt
          | _ :: _ => Throw (TypeError "mapping.setValue is not a function")
          end).
Proof.
  intros H. induction entries as [|[region value] entries IH]; simpl.
  - by destruct (other_setValue o).
  - unfold bind, call_setValue at 1. rewrite H.
    destruct (other_setValue o); [|done]. by rewrite IH.
Qed.

(** No child under the name: a table is created, registered and filled. *)
Lemma materialize_absent stack factName lookupMap :
  tryFindChild stack (mapId factName) = None →
  materialize Aws_REGION factName lookupMap stack =
    (stack ++ [(mapId factName, CfnMappingC (setCells ∅ (factKey factName) lookupMap))],
     Return (FnFindInMap (mapId factName) Aws_REGION (factKey factName))).
Proof.
  intros H. unfold materialize, bind at 1, node_tryFindChild. rewrite H.
  unfold bind at 1, new_CfnMapping. unfold bind at 1, Object_entries.
  assert (tryFindChild (stack ++ [(mapId factName, CfnMappingC ∅)]) (mapId factName)
          = Some (CfnMappingC ∅)) as Hnew.
  { by rewrite tryFindChild_snoc, H, String.eqb_refl. }
  rewrite (forOf_setValue_table _ _ _ _ _ Hnew), updateChild_snoc by done.
  unfold call_findInMap.
  by rewrite tryFindChild_snoc, H, String.eqb_refl.
Qed.

(** A table under the name: it is found and filled; no child is added. *)
Lemma materialize_table stack factName lookupMap m :
  tryFindChild stack (mapId factName) = Some (CfnMappingC m) →
  materialize Aws_REGION factName lookupMap stack =
    (updateChild stack (mapId factName)
       (CfnMappingC (setCells m (factKey factName) lookupMap)),
     Return (FnFindInMap (mapId factName) Aws_REGION (factKey factName))).
Proof.
  intros H. unfold materialize, bind at 1, node_tryFindChild. rewrite H.
  unfold bind at 1, ret. unfold bind at 1, Object_entries.
  rewrite (forOf_setValue_table _ _ _ _ _ H).
  unfold call_findInMap. by erewrite tryFindChild_updateChild_eq.
Qed.

(** Another construct under the name: it is used as found. *)
Lemma materialize_other stack factName lookupMap o :
  tryFindChild stack (mapId factName) = Some (OtherC o) →
  materialize Aws_REGION factName lookupMap stack =
    (stack,
     if other_setValue o || bool_decide (lookupMap = []) then
       match other_findInMap o with
       | Some v => Return v
       | None => Throw (TypeError "mapping.findInMap is not a function")
       end
     else Throw (TypeError "mapping.setValue is not a function")).
Proof.
  intros H. unfold materialize, bind at 1, node_tryFindChild. rewrite H.
  unfold bind at 1, ret. unfold bind at 1, Object_entries.
  rewrite (forOf_setValue_other _ _ _ _ _ H). unfold call_findInMap. rewrite H.
  destruct (other_setValue o); simpl.
  - by destruct (other_findInMap o).
  - destruct lookupMap; simpl; [by destruct (other_findInMap o) | done].
Qed.

(** ** What the loop leaves in the cells *)

Lemma cell_setCells_other m factKey entries key key2 :
  key2 ≠ factKey ∨ key ∉ entries.*1 →
  cell (setCells m factKey entries) key key2 = cell m key key2.
Proof.
  revert m; induction entries as [|[region value] entries IH]; intros m H; [done|].
  simpl. rewrite IH.
  - apply cell_setCell_ne. destruct H as [H|H]; [by right; congruence|].
    left. intros ->. apply H. csimpl. apply elem_of_cons. by left.
  - destruct H as [H|H]; [by left|]. right. intros Hin. apply H. csimpl.
    apply elem_of_cons. by right.
Qed.

Lemma cell_setCells_entry m factKey entries key value :
  NoDup entries.*1 → (key, value) ∈ entries →
  cell (setCells m factKey entries) key factKey = Some value.
Proof.
  revert m; induction entries as [|[region v] entries IH]; intros m Hnd Hin.
  - by apply elem_of_nil in Hin.
  - csimpl in Hnd. apply NoDup_cons in Hnd as [Hfresh Hnd].
    apply elem_of_cons in Hin as [[= -> ->]|Hin]; simpl.
    + rewrite cell_setCells_other by (by right). apply cell_setCell_eq.
    + by apply IH.
Qed.

End Materialize.

(** * [deployTimeLookup] *)

Section Lookup.
Implicit Types (stack : Stack) (lookupMap rest : list (string * string)).

Variable domainSuffix : string → option string.
Variable Aws_REGION : string.
Variable Aws_URL_SUFFIX : string.
Variable TARGET_PARTITIONS : string.

Abbreviation tokenize := (tokenizedValue domainSuffix Aws_REGION Aws_URL_SUFFIX).
Abbreviation tokensOf := (tokenizedMap domainSuffix Aws_REGION Aws_URL_SUFFIX).
Abbreviation tableFor := (materialize Aws_REGION).
Abbreviation resolve :=
  (deployTimeLookup domainSuffix Aws_REGION Aws_URL_SUFFIX TARGET_PARTITIONS).

(** The test of line 24, [tokenizedValues.every((v) => v === first)]. *)
Lemma every_equal_spec lookupMap t :
  forallb (λ v, bool_decide (Some v = Some t)) (Object_values (tokensOf lookupMap)) = true ↔
  ∀ key value, (key, value) ∈ lookupMap → tokenize key value = t.
Proof.
  unfold Object_values, tokenizedMap, Object_entries.
  induction lookupMap as [|[k v] l IH]; csimpl.
  - split; [|done]. intros _ key value Hin. by apply elem_of_nil in Hin.
  - rewrite andb_true_iff, IH, bool_decide_eq_true. split.
    + intros [[= Ht] Hl] key value [[= -> ->]|Hin]%elem_of_cons; auto.
    + intros H. split.
      * f_equal. apply H, elem_of_cons. by left.
      * intros key value Hin. apply H, elem_of_cons. by right.
Qed.

Lemma every_equal_uniform key0 value0 rest :
  let lookupMap := (key0, value0) :: rest in
  forallb (λ v, bool_decide (Some v = head (Object_values (tokensOf lookupMap))))
    (Object_values (tokensOf lookupMap)) = true ↔
  uniform tokenize lookupMap.
Proof. intros lookupMap. apply (every_equal_spec lookupMap). Qed.

(** The three ways out of [deployTimeLookup] for a map with entries. *)
Lemma deployTimeLookup_uniform factName key0 value0 rest defaultValue stack :
  uniform tokenize ((key0, value0) :: rest) →
  resolve factName ((key0, value0) :: rest) defaultValue stack =
    (stack, Return (Str (tokenize key0 value0))).
Proof.
  intros H%every_equal_uniform. unfold deployTimeLookup.
  change (length (Object_values ((key0, value0) :: rest)) =? 0) with false.
  cbv iota. cbv zeta. by rewrite H.
Qed.

Lemma deployTimeLookup_not_uniform factName key0 value0 rest defaultValue stack :
  ¬ uniform tokenize ((key0, value0) :: rest) →
  resolve factName ((key0, value0) :: rest) defaultValue stack =
    tableFor factName ((key0, value0) :: rest) stack.
Proof.
  intros H. unfold deployTimeLookup.
  change (length (Object_values ((key0, value0) :: rest)) =? 0) with false.
  cbv iota. cbv zeta.
  destruct (forallb _ _) eqn:E; [|done]. by apply every_equal_uniform in E.
Qed.

Lemma uniform_dec lookupMap : Decision (uniform tokenize lookupMap).
Proof.
  destruct lookupMap as [|[key0 value0] rest]; [left; exact I|].
  destruct (forallb (λ v, bool_decide (Some v = head (Object_values (tokensOf ((key0, value0) :: rest)))))
    (Object_values (tokensOf ((key0, value0) :: rest)))) eqn:E.
  - left. by apply every_equal_uniform.
  - right. intros H%every_equal_uniform. congruence.
Defined.


Lemma mapId_same_class factName1 factName2 :
  factClass factName1 = factClass factName2 → mapId factName1 = mapId factName2.
Proof. unfold mapId. by intros ->. Qed.

(** The table path adds at most the one child it looked for and did not
    find. *)
Lemma materialize_ids stack factName lookupMap :
  ids (tableFor factName lookupMap stack).1 =
    match tryFindChild stack (mapId factName) with
    | None => ids stack ++ [mapId factName]
    | Some _ => ids stack
    end.
Proof.
  destruct (tryFindChild stack (mapId factName)) as [[m|o]|] eqn:E.
  - rewrite (materialize_table _ _ _ _ _ E). apply ids_updateChild.
  - by rewrite (materialize_other _ _ _ _ _ E).
  - rewrite (materialize_absent _ _ _ _ E). simpl. unfold ids. by rewrite fmap_app.
Qed.

Lemma resolve_ids stack factName lookupMap defaultValue :
  ids (resolve factName lookupMap defaultValue stack).1 = ids stack ∨
  tryFindChild stack (mapId factName) = None ∧
  ids (resolve factName lookupMap defaultValue stack).1 = ids stack ++ [mapId factName].
Proof.
  destruct lookupMap as [|[key0 value0] rest].
  - left. by destruct defaultValue.
  - destruct (uniform_dec ((key0, value0) :: rest)) as [Hu|Hn].
    + left. by rewrite deployTimeLookup_uniform.
    + rewrite deployTimeLookup_not_uniform, materialize_ids by done.
      destruct (tryFindChild stack (mapId factName)); auto.
Qed.

(** Children under other names are left as they were. *)
Lemma resolve_frame stack factName lookupMap defaultValue id' :
  id' ≠ mapId factName →
  tryFindChild (resolve factName lookupMap defaultValue stack).1 id' = tryFindChild stack id'.
Proof.
  intros Hne. destruct lookupMap as [|[key0 value0] rest].
  - by destruct defaultValue.
  - destruct (uniform_dec ((key0, value0) :: rest)) as [Hu|Hn].
    + by rewrite deployTimeLookup_uniform.
    + rewrite deployTimeLookup_not_uniform by done.
      destruct (tryFindChild stack (mapId factName)) as [[m|o]|] eqn:E.
      * rewrite (materialize_table _ _ _ _ _ E). by apply tryFindChild_updateChild_ne.
      * by rewrite (materialize_other _ _ _ _ _ E).
      * rewrite (materialize_absent _ _ _ _ E). cbn [fst].
        rewrite tryFindChild_snoc. destruct (tryFindChild stack id'); [done|].
        by destruct (String.eqb_spec (mapId factName) id').
Qed.

Lemma resolve_well_formed stack factName lookupMap defaultValue :
  well_formed stack → well_formed (resolve factName lookupMap defaultValue stack).1.
Proof.
  unfold well_formed. intros Hnd.
  destruct (resolve_ids stack factName lookupMap defaultValue) as [->|[Hnone ->]]; [done|].
  apply NoDup_app. split; [done|]. split; [|apply NoDup_singleton].
  intros x Hx ->%list_elem_of_singleton. by apply tryFindChild_None in Hnone.
Qed.

(** On a scope whose child of that name, if any, is a table, the table path
    ends with a table under the name that holds the cells of the map. *)
Lemma materialize_fills stack factName lookupMap :
  table_or_absent stack (mapId factName) →
  ∃ m0,
    tableFor factName lookupMap stack =
      ((tableFor factName lookupMap stack).1,
       Return (FnFindInMap (mapId factName) Aws_REGION (factKey factName))) ∧
    tryFindChild (tableFor factName lookupMap stack).1 (mapId factName) =
      Some (CfnMappingC (setCells m0 (factKey factName) lookupMap)).
Proof.
  intros Hkind. destruct (tryFindChild stack (mapId factName)) as [c|] eqn:E.
  - destruct (Hkind _ E) as [m ->]. exists m.
    rewrite (materialize_table _ _ _ _ _ E). split; [done|]. simpl.
    by erewrite tryFindChild_updateChild_eq.
  - exists ∅. rewrite (materialize_absent _ _ _ _ E). split; [done|]. simpl.
    by rewrite tryFindChild_snoc, E, String.eqb_refl.
Qed.

Lemma deployTimeLookup_single factName key value defaultValue stack :
  resolve factName [(key, value)] defaultValue stack =
    (stack, Return (Str (tokenize key value))).
Proof.
  apply deployTimeLookup_uniform. intros k v Hin.
  by apply list_elem_of_singleton in Hin as [= -> ->].
Qed.

(** ** The claims *)


(** C4: with an empty lookup map and no default value, resolve fails with
    the error for a missing fact.  Its message names the fact and points
    to the two ways out: registering the fact, or adding partitions to the
    context value of the target partitions.  No value is returned. *)
Theorem missing_fact_error factName stack :
  let message := missingFactMessage TARGET_PARTITIONS factName in
  (resolve factName [] None stack).2 = Throw (Error message) ∧
  message =
    "region-info: don't have any information for " +:+ factName +:+
    ". Use 'Fact.register' to provide values, or add partitions to the '" +:+
    TARGET_PARTITIONS +:+ "' context value." ∧
  contains message factName ∧
  contains message "Use 'Fact.register' to provide values" ∧
  contains message ("add partitions to the '" +:+ TARGET_PARTITIONS +:+ "' context value").
Proof.
  intros message. split; [done|]. split; [done|]. unfold contains, occurs, occurs_at.
  split; [|split].
  - by eexists "region-info: don't have any information for ", _.
  - exists ("region-info: don't have any information for " +:+ factName +:+ ". "),
      (", or add partitions to the '" +:+ TARGET_PARTITIONS +:+ "' context value.").
    unfold message, missingFactMessage. by rewrite !JsFacts.app_assoc.
  - exists ("region-info: don't have any information for " +:+ factName +:+
            ". Use 'Fact.register' to provide values, or "), ".".
    unfold message, missingFactMessage. by rewrite !JsFacts.app_assoc.
Qed.

(** C6: with an empty lookup map and a default value, resolve returns the
    default value verbatim, as a literal, and the scope is as it was: no
    table is created. *)
Theorem default_fallback factName default stack :
  resolve factName [] (Some default) stack = (stack, Return (Str default)).
Proof. reflexivity. Qed.


(** C10: when resolve fails because the lookup map is empty and there is
    no default value, the scope is as it was before the call: no child was
    added and no cell was set. *)
Theorem missing_fact_leaves_scope factName stack :
  (resolve factName [] None stack).1 = stack ∧
  ∃ e, (resolve factName [] None stack).2 = Throw e.
Proof. split; [done|]. by eexists. Qed.





End Lookup.

(** * Row keys *)

Lemma identifier_safe_replaced c :
  identifier_safe (if Js.is_alnum c then c else "_"%char) = true.
Proof.
  unfold identifier_safe. destruct (Js.is_alnum c) eqn:E; [by rewrite E | done].
Qed.

(** C8: row-key derivation is total.  For every fact param it yields the
    param with each character outside [A-Za-z0-9] replaced by an underscore,
    so "a.b-c" gives "a_b_c"; the row key has the length of the param and
    holds identifier-safe characters only.  The row key that the table path
    uses is this function of the param: no error can come from it. *)
Theorem rowKey_total param :
  String.length (rowKey param) = String.length param ∧
  (∀ i, String.get i (rowKey param) =
          (λ c, if Js.is_alnum c then c else "_"%char) <$> String.get i param) ∧
  forallb identifier_safe (String.list_ascii_of_string (rowKey param)) = true ∧
  rowKey "a.b-c" = "a_b_c" ∧
  (∀ factName, factKey factName = rowKey (factParam factName)).
Proof.
  split; [apply JsFacts.length_map_units|]. split; [intros i; apply JsFacts.get_map_units|].
  split; [|done]. unfold rowKey, Js.replace_non_alnum.
  induction param as [|c param IH]; [done|]. simpl.
  by rewrite identifier_safe_replaced, IH.
Qed.

(** * The theorems at the inputs of the spec's test properties *)

Section Instances.
Import Example.

Lemma services_uniform : uniform tokenize services.
Proof. apply every_equal_uniform. vm_compute. reflexivity. Defined.

Lemma urls_not_uniform : ¬ uniform tokenize urls.
Proof. intros H%every_equal_uniform. vm_compute in H. discriminate. Defined.

Lemma urls'_not_uniform : ¬ uniform tokenize urls'.
Proof. intros H%every_equal_uniform. vm_compute in H. discriminate. Defined.

Lemma empty_scope_table_or_absent id : table_or_absent [] id.
Proof. intros c H. discriminate. Defined.

Lemma urls_keys_NoDup : NoDup urls.*1.
Proof. apply (bool_decide_unpack _). vm_compute. exact I. Defined.

Lemma urls'_keys_NoDup : NoDup urls'.*1.
Proof. apply (bool_decide_unpack _). vm_compute. exact I. Defined.

End Instances.








(** Test property 5, by evaluation: "Widget:alpha" and "Widget:beta" on the
    empty scope share the one table "WidgetMap", each under its own row
    key. *)
Example widget_alpha_beta :
  let first := Example.resolve "Widget:alpha" Example.urls None [] in
  let second := Example.resolve "Widget:beta" Example.urls' None first.1 in
  ids second.1 = ["WidgetMap"] ∧
  second.2 = Return (FnFindInMap "WidgetMap" "<REGION>" "beta") ∧
  match tryFindChild second.1 "WidgetMap" with
  | Some (CfnMappingC m) =>
      cell m "a" "alpha" = Some "urlA" ∧ cell m "b" "alpha" = Some "urlB" ∧
      cell m "a" "beta" = Some "urlC" ∧ cell m "c" "beta" = Some "urlD" ∧
      cell m "c" "alpha" = None
  | _ => False
  end.
Proof. vm_compute. by repeat split. Qed.

(** The empty separator: the code units, joined by the replacement. *)
Example replaceAll_empty_separator :
  replaceAll "abc" "" "-" = "a-b-c" ∧ replaceAll "" "" "-" = "" ∧
  replaceAll "aaa" "aa" "-" = "-a" ∧ replaceAll "" "a" "-" = "".
Proof. vm_compute. by repeat split. Qed.

(** * More about [replaceAll] *)

Section ReplaceAllMore.
Import Js JsFacts.

Lemma join_chars x : join (chars x) "" = x.
Proof.
  induction x as [|c x IH]; [done|].
  destruct x as [|c' x]; [done|].
  change (chars (String c (String c' x))) with (String c "" :: chars (String c' x)).
  rewrite join_cons by done. by rewrite IH.
Qed.

Lemma length_chars x : length (chars x) = String.length x.
Proof. induction x as [|c x IH]; simpl; congruence. Qed.

Lemma breakAt_occurs pat x : occurs pat x ↔ is_Some (breakAt pat x).
Proof.
  split.
  - intros (pre & post & Hx). destruct (breakAt_complete _ _ _ _ Hx) as (p & q & -> & _).
    by eexists.
  - intros [[pre post] H]. exists pre, post. by apply breakAt_Some.
Qed.

Lemma breakAt_not_occurs pat x : ¬ occurs pat x ↔ breakAt pat x = None.
Proof.
  rewrite breakAt_occurs. destruct (breakAt pat x) as [p|].
  - split; [|done]. intros H. destruct H. by exists p.
  - split; [done|]. by intros _ [? ?].
Qed.

Lemma replaceAll_same_nonempty pat x : pat ≠ "" → replaceAll x pat pat = x.
Proof.
  intros Hpat. remember (String.length x) as n eqn:Hn. revert x Hn.
  induction n as [n IH] using lt_wf_ind. intros x ->.
  rewrite replaceAll_step by done.
  destruct (breakAt pat x) as [[pre post]|] eqn:E; [|done].
  rewrite (IH (String.length post)); [|by apply (breakAt_shorter pat Hpat x pre)|done].
  symmetry. by apply breakAt_Some.
Qed.

Lemma replaceAll_length_nonempty pat token x :
  pat ≠ "" →
  String.length (replaceAll x pat token) + (length (split x pat) - 1) * String.length pat =
  String.length x + (length (split x pat) - 1) * String.length token.
Proof.
  intros Hpat. remember (String.length x) as n eqn:Hn. revert x Hn.
  induction n as [n IH] using lt_wf_ind. intros x ->.
  rewrite replaceAll_step, split_nonempty, split_loop_step by done.
  destruct (breakAt pat x) as [[pre post]|] eqn:E; [|simpl; lia].
  pose proof (breakAt_length _ _ _ _ E) as Hlen.
  specialize (IH (String.length post) (breakAt_shorter pat Hpat x pre post E) post eq_refl).
  rewrite split_nonempty in IH by done.
  pose proof (split_loop_nonempty pat post) as Hne.
  destruct (split_loop pat post) as [|T l] eqn:Es; [done|].
  rewrite !length_app. simpl in *. lia.
Qed.

Lemma replaceAll_length_empty token x :
  String.length (replaceAll x "" token) =
  String.length x + (String.length x - 1) * String.length token.
Proof.
  unfold replaceAll, split. induction x as [|c x IH]; [done|].
  destruct x as [|c' x]; [done|].
  change (chars (String c (String c' x))) with (String c "" :: chars (String c' x)).
  rewrite join_cons by done. rewrite !length_app, IH. simpl. lia.
Qed.

End ReplaceAllMore.

(** X1: replacing a pattern by itself changes nothing, for every text and
    every pattern, the empty one included: the parts of [x.split(pat)]
    joined by [pat] are [x] again. *)
Theorem replaceAll_same_pattern x pat : replaceAll x pat pat = x.
Proof.
  destruct pat as [|a pat]; [apply join_chars|]. by apply replaceAll_same_nonempty.
Qed.

(** X2: for a non-empty pattern, a text in which the pattern does not occur
    is returned as it is, and a text in which it occurs comes back with the
    replacement in it. *)
Theorem replaceAll_occurrence x pat replacement :
  pat ≠ "" →
  (¬ occurs pat x → replaceAll x pat replacement = x) ∧
  (occurs pat x → occurs replacement (replaceAll x pat replacement)).
Proof.
  intros Hpat. rewrite replaceAll_step by done. split.
  - intros ->%breakAt_not_occurs. done.
  - intros [[pre post] ->]%breakAt_occurs. by eexists _, _.
Qed.


(** * The class and the param of a fact name *)

Section FactName.
Import Js JsFacts.

Lemma app_eq_split s t s' t' :
  s +:+ t = s' +:+ t' → String.length s' ≤ String.length s →
  ∃ d, s = s' +:+ d ∧ t' = d +:+ t.
Proof.
  revert s; induction s' as [|a s' IH]; intros s H Hlen.
  - exists s. by rewrite app_nil_l in *.
  - destruct s as [|b s]; [simpl in Hlen; lia|].
    rewrite !app_cons in H. injection H as -> H. simpl in Hlen.
    destruct (IH s H ltac:(lia)) as (d & -> & ->). by exists d.
Qed.

Lemma leftmost_breakAt pat x pre post :
  leftmost pat x pre post → breakAt pat x = Some (pre, post).
Proof.
  intros Hl. pose proof Hl as [Hocc Hmin].
  destruct (breakAt_complete _ _ _ _ Hocc) as (p & q & E & Hle).
  pose proof (breakAt_leftmost_occ _ _ _ _ E) as Hl'.
  by destruct (leftmost_unique pat x pre post p q Hl Hl') as [-> ->].
Qed.

(** The text before the first occurrence holds no occurrence. *)
Lemma breakAt_pre_free pat x pre post :
  pat ≠ "" → breakAt pat x = Some (pre, post) → ¬ occurs pat pre.
Proof.
  intros Hpat E (a & b & Hpre).
  pose proof (breakAt_Some _ _ _ _ E) as Hx.
  assert (x = a +:+ pat +:+ (b +:+ pat +:+ post)) as Hx'.
  { rewrite Hx, Hpre. by rewrite !app_assoc. }
  pose proof (breakAt_leftmost _ _ _ _ _ _ E Hx') as Hle.
  rewrite Hpre, !length_app in Hle. pose proof (length_pos _ Hpat). lia.
Qed.

Lemma leftmost_unit c pre post :
  ¬ occurs (String c "") pre →
  leftmost (String c "") (pre +:+ String c "" +:+ post) pre post.
Proof.
  intros Hfree. split; [done|]. intros pre' post' Hocc. unfold occurs_at in Hocc.
  destruct (decide (String.length pre ≤ String.length pre')) as [|Hlt]; [done|].
  destruct (app_eq_split _ _ _ _ Hocc ltac:(lia)) as (d & Hpre & Hd).
  destruct d as [|a d].
  - rewrite app_nil_r in Hpre. subst pre'. lia.
  - rewrite !app_cons, app_nil_l in Hd. injection Hd as <- _.
    destruct Hfree. exists pre', d. by rewrite Hpre.
Qed.

Lemma includes_occurs x pat : includes x pat = true ↔ occurs pat x.
Proof.
  unfold includes. rewrite breakAt_occurs.
  destruct (breakAt pat x) as [p|]; split; done.
Qed.

(** The two parts that the destructuring takes from [factName.split(':')]. *)
Lemma factClassParam_breakAt factName :
  factClassParam factName =
    match breakAt ":" factName with
    | None => (factName, "value")
    | Some (class, post) =>
        (class, match breakAt ":" post with
                | None => post
                | Some (param, _) => param
                end)
    end.
Proof.
  unfold factClassParam, includes, split.
  rewrite (split_loop_step ":" factName) by done.
  destruct (breakAt ":" factName) as [[class post]|]; [|done].
  rewrite (split_loop_step ":" post) by done.
  by destruct (breakAt ":" post) as [[param post']|].
Qed.

Lemma factClassParam_bare factName :
  ¬ occurs ":" factName → factClassParam factName = (factName, "value").
Proof. intros H%breakAt_not_occurs. by rewrite factClassParam_breakAt, H. Qed.

Lemma factClassParam_two class param :
  ¬ occurs ":" class → ¬ occurs ":" param →
  factClassParam (class +:+ ":" +:+ param) = (class, param).
Proof.
  intros Hc Hp. rewrite factClassParam_breakAt.
  rewrite (leftmost_breakAt ":" _ class param) by (by apply leftmost_unit).
  by apply breakAt_not_occurs in Hp as ->.
Qed.

Lemma factClassParam_more class param rest :
  ¬ occurs ":" class → ¬ occurs ":" param →
  factClassParam (class +:+ ":" +:+ param +:+ ":" +:+ rest) = (class, param).
Proof.
  intros Hc Hp. rewrite factClassParam_breakAt.
  rewrite (leftmost_breakAt ":" _ class (param +:+ ":" +:+ rest)) by (by apply leftmost_unit).
  by rewrite (leftmost_breakAt ":" _ param rest) by (by apply leftmost_unit).
Qed.

End FactName.

(** X4: how a fact name is read.  A name without a colon is the class, with
    the param "value".  A name with a colon is the class, a colon, the
    param, and possibly more text that starts with a second colon; neither
    the class nor the param holds a colon, and the text from the second
    colon on is not used. *)
Theorem factName_decomposition factName :
  (¬ occurs ":" factName →
     factClass factName = factName ∧ factParam factName = "value") ∧
  (occurs ":" factName →
     ¬ occurs ":" (factClass factName) ∧
     ¬ occurs ":" (factParam factName) ∧
     ∃ rest, factName = factClass factName +:+ ":" +:+ factParam factName +:+ rest ∧
             (rest = "" ∨ ∃ rest', rest = ":" +:+ rest')).
Proof.
  unfold factClass, factParam. split.
  - intros H. by rewrite factClassParam_bare.
  - intros [[class post] E]%breakAt_occurs. rewrite factClassParam_breakAt, E. cbn [fst snd].
    split; [by apply (breakAt_pre_free ":" factName class post)|].
    apply JsFacts.breakAt_Some in E as ->.
    destruct (Js.breakAt ":" post) as [[param post']|] eqn:E'.
    + split; [by apply (breakAt_pre_free ":" post param post')|].
      apply JsFacts.breakAt_Some in E' as ->. exists (":" +:+ post'). split; [done|].
      right. by exists post'.
    + split; [by apply breakAt_not_occurs|]. exists "". split; [|by left].
      by rewrite JsFacts.app_nil_r.
Qed.

(** X5: how fact names address cells.  For a class and a param without
    colons, "class:param" is read as that class and that param, whatever
    follows a second colon is ignored, and the bare class is read as
    "class:value": such names give the same table identity and the same
    row key. *)
Theorem factName_composition class param rest :
  ¬ occurs ":" class → ¬ occurs ":" param →
  factClassParam (class +:+ ":" +:+ param) = (class, param) ∧
  factClassParam (class +:+ ":" +:+ param +:+ ":" +:+ rest) = (class, param) ∧
  factClassParam class = factClassParam (class +:+ ":value") ∧
  mapId (class +:+ ":" +:+ param +:+ ":" +:+ rest) = mapId (class +:+ ":" +:+ param) ∧
  factKey (class +:+ ":" +:+ param +:+ ":" +:+ rest) = factKey (class +:+ ":" +:+ param) ∧
  mapId class = mapId (class +:+ ":value") ∧
  factKey class = factKey (class +:+ ":value").
Proof.
  intros Hc Hp.
  assert (factClassParam class = factClassParam (class +:+ ":value")) as Hbare.
  { rewrite factClassParam_bare by done.
    change (class +:+ ":value") with (class +:+ ":" +:+ "value").
    rewrite factClassParam_two; [done..|].
    apply breakAt_not_occurs. reflexivity. }
  unfold mapId, factKey, factClass, factParam.
  rewrite <- Hbare, factClassParam_more, factClassParam_two by done. done.
Qed.

(** * Table identities and row keys *)

Section Identity.
Import Js JsFacts.

Lemma substring_all s : String.substring 0 (String.length s) s = s.
Proof. induction s as [|c s IH]; simpl; congruence. Qed.

Lemma ucfirst_cons c s : ucfirst (String c s) = String (upper_unit c) s.
Proof.
  unfold ucfirst, substr, substr_from. simpl. rewrite Nat.sub_0_r.
  destruct s as [|c' s]; simpl; [done|]. by rewrite substring_all.
Qed.

Lemma upper_unit_idem c : upper_unit (upper_unit c) = upper_unit c.
Proof. by destruct c as [[] [] [] [] [] [] [] []]. Qed.

Lemma lower_not_colon c : is_lower c = true → c ≠ ":"%char ∧ upper_unit c ≠ ":"%char.
Proof. by destruct c as [[] [] [] [] [] [] [] []]. Qed.

Lemma breakAt_colon_cons c x :
  c ≠ ":"%char →
  breakAt ":" (String c x) =
    match breakAt ":" x with
    | Some (pre, post) => Some (String c pre, post)
    | None => None
    end.
Proof.
  intros Hc.
  assert (dropPrefix ":" (String c x) = None) as E.
  { destruct (dropPrefix ":" (String c x)) as [post|] eqn:E; [|done].
    apply dropPrefix_spec in E. rewrite app_cons in E. by injection E as -> _. }
  change (breakAt ":" (String c x)) with
    (match dropPrefix ":" (String c x) with
     | Some post => Some (EmptyString, post)
     | None => match breakAt ":" x with
               | Some (pre, post) => Some (String c pre, post)
               | None => None
               end
     end).
  by rewrite E.
Qed.

Lemma factClassParam_cons c x :
  c ≠ ":"%char →
  factClassParam (String c x) =
    (String c (match breakAt ":" x with Some (pre, _) => pre | None => x end),
     (factClassParam x).2).
Proof.
  intros Hc. rewrite !factClassParam_breakAt, breakAt_colon_cons by done.
  by destruct (breakAt ":" x) as [[pre post]|].
Qed.

Lemma rowKey_unit_idem c :
  (λ c, if is_alnum c then c else "_"%char)
    ((λ c, if is_alnum c then c else "_"%char) c) =
  (λ c, if is_alnum c then c else "_"%char) c.
Proof. simpl. destruct (is_alnum c) eqn:E; [by rewrite E | done]. Qed.

Lemma map_units_fixed f x :
  map_units f x = x ↔ forallb (λ c, bool_decide (f c = c)) (String.list_ascii_of_string x) = true.
Proof.
  induction x as [|c x IH]; simpl; [done|].
  rewrite andb_true_iff, bool_decide_eq_true, <- IH. split.
  - by intros [= ? ?].
  - by intros [-> ->].
Qed.

Lemma rowKey_unit_fixed c :
  bool_decide ((if is_alnum c then c else "_"%char) = c) = identifier_safe c.
Proof.
  unfold identifier_safe. destruct (is_alnum c) eqn:E; simpl.
  - by apply bool_decide_eq_true.
  - destruct (Ascii.eqb_spec c "_") as [->|Hne].
    + by apply bool_decide_eq_true.
    + apply bool_decide_eq_false. congruence.
Qed.

End Identity.

(** X6: the table identity does not tell the case of a first letter a to z
    apart: a fact name and the same name with its first letter in upper
    case have the same table identity and the same row key, so the two
    classes share one table and one row. *)
Theorem mapId_first_letter_case c name :
  Js.is_lower c = true →
  mapId (String c name) = mapId (String (Js.upper_unit c) name) ∧
  factKey (String c name) = factKey (String (Js.upper_unit c) name).
Proof.
  intros [Hc Hu]%lower_not_colon. unfold mapId, factKey, factClass, factParam.
  rewrite !factClassParam_cons by done. cbn [fst snd].
  by rewrite !ucfirst_cons, upper_unit_idem.
Qed.

(** X7: deriving a row key from a row key changes nothing, and the params
    that are their own row key are those made of letters, digits and
    underscores only. *)
Theorem rowKey_idempotent_fixpoints param :
  rowKey (rowKey param) = rowKey param ∧
  (rowKey param = param ↔
     forallb identifier_safe (String.list_ascii_of_string param) = true).
Proof.
  unfold rowKey, Js.replace_non_alnum. split.
  - induction param as [|c param IH]; [done|]. simpl.
    rewrite IH. f_equal. apply rowKey_unit_idem.
  - rewrite map_units_fixed. f_equiv. 
    induction param as [|c param IH]; [done|]. simpl.
    by rewrite IH, rowKey_unit_fixed.
Qed.

(** * More about the tokenizer and [deployTimeLookup] *)

Lemma occurs_empty x : occurs "" x.
Proof. by exists "", x. Qed.

Lemma replaceAll_first_and_last pat token x pre post :
  pat ≠ "" → occurs_first_and_last pat x pre post →
  replaceAll x pat token = pre +:+ token +:+ post.
Proof.
  intros Hpat [Hl Hno]. rewrite replaceAll_step by done.
  rewrite (leftmost_breakAt _ _ _ _ Hl).
  rewrite (replaceAll_step pat token Hpat post).
  by apply breakAt_not_occurs in Hno as ->.
Qed.

Lemma replaceAll_absent pat token x : ¬ occurs pat x → replaceAll x pat token = x.
Proof.
  intros Hno. assert (pat ≠ "") as Hpat by (intros ->; apply Hno, occurs_empty).
  rewrite replaceAll_step by done. by apply breakAt_not_occurs in Hno as ->.
Qed.

(** ** The cells that the loop sets *)

Lemma setCells_cons m factKey region value entries :
  setCells m factKey ((region, value) :: entries) =
  setCells (setCell m region factKey value) factKey entries.
Proof. reflexivity. Qed.

Lemma setCells_lookup m factKey entries key :
  setCells m factKey entries !! key =
    match lastValue key entries with
    | None => m !! key
    | Some v => Some (<[factKey := v]> (default ∅ (m !! key)))
    end.
Proof.
  revert m; induction entries as [|[k v] entries IH]; intros m; [done|].
  rewrite setCells_cons, IH. simpl. unfold setCell.
  destruct (lastValue key entries) as [w|].
  - destruct (String.eqb_spec k key) as [->|Hne].
    + rewrite lookup_insert_eq. simpl. by rewrite insert_insert_eq.
    + by rewrite lookup_insert_ne.
  - destruct (String.eqb_spec k key) as [->|Hne].
    + by rewrite lookup_insert_eq.
    + by rewrite lookup_insert_ne.
Qed.

Lemma setCells_idem m factKey entries :
  setCells (setCells m factKey entries) factKey entries = setCells m factKey entries.
Proof.
  apply map_eq. intros key. rewrite !setCells_lookup.
  destruct (lastValue key entries) as [v|]; [|done].
  simpl. by rewrite insert_insert_eq.
Qed.

Lemma lastValue_Some_in key v entries : lastValue key entries = Some v → (key, v) ∈ entries.
Proof.
  induction entries as [|[k w] entries IH]; [done|]. simpl.
  destruct (lastValue key entries) as [u|].
  - intros [= ->]. apply elem_of_cons. right. by apply IH.
  - destruct (String.eqb_spec k key) as [->|]; [|done].
    intros [= ->]. apply elem_of_cons. by left.
Qed.

Lemma lastValue_None key entries : lastValue key entries = None ↔ key ∉ entries.*1.
Proof.
  induction entries as [|[k w] entries IH]; csimpl.
  - split; [intros _; apply not_elem_of_nil | done].
  - rewrite not_elem_of_cons, <- IH. destruct (lastValue key entries) as [u|].
    + split; [done | by intros [_ ?]].
    + destruct (String.eqb_spec k key) as [->|Hne].
      * split; [done | by intros [? _]].
      * split; [by intros _; split; [congruence|] | done].
Qed.

Lemma lastValue_in key v entries :
  NoDup entries.*1 → (key, v) ∈ entries → lastValue key entries = Some v.
Proof.
  induction entries as [|[k w] entries IH]; intros Hnd Hin.
  - by apply elem_of_nil in Hin.
  - csimpl in Hnd. apply NoDup_cons in Hnd as [Hfresh Hnd]. simpl.
    apply elem_of_cons in Hin as [[= -> ->]|Hin].
    + apply lastValue_None in Hfresh as ->. by rewrite String.eqb_refl.
    + by rewrite (IH Hnd Hin).
Qed.

Lemma lastValue_Permutation key entries entries' :
  NoDup entries.*1 → entries ≡ₚ entries' → lastValue key entries = lastValue key entries'.
Proof.
  intros Hnd Hperm.
  assert (NoDup entries'.*1) as Hnd' by (by rewrite <- Hperm).
  destruct (lastValue key entries) as [v|] eqn:E.
  - symmetry. apply lastValue_in; [done|]. rewrite <- Hperm. by apply lastValue_Some_in.
  - symmetry. apply lastValue_None. rewrite <- Hperm. by apply lastValue_None.
Qed.

Lemma setCells_Permutation m factKey entries entries' :
  NoDup entries.*1 → entries ≡ₚ entries' →
  setCells m factKey entries = setCells m factKey entries'.
Proof.
  intros Hnd Hperm. apply map_eq. intros key.
  by rewrite !setCells_lookup, (lastValue_Permutation key _ _ Hnd Hperm).
Qed.

Lemma cell_setCell m key1 key2 value key row :
  cell (setCell m key1 key2 value) key row =
    if decide (key1 = key ∧ key2 = row) then Some value else cell m key row.
Proof.
  case_decide as H.
  - destruct H as [-> ->]. apply cell_setCell_eq.
  - apply cell_setCell_ne. destruct (decide (key1 = key)); [right|left]; naive_solver.
Qed.

Lemma cell_setCells_kept m factKey entries key row :
  is_Some (cell m key row) → is_Some (cell (setCells m factKey entries) key row).
Proof.
  revert m; induction entries as [|[k v] entries IH]; intros m H; [done|].
  rewrite setCells_cons. apply IH. rewrite cell_setCell. by case_decide.
Qed.

Section LookupMore.
Implicit Types (stack : Stack) (lookupMap rest : list (string * string)).

Variable domainSuffix : string → option string.
Variable Aws_REGION : string.
Variable Aws_URL_SUFFIX : string.
Variable TARGET_PARTITIONS : string.

Abbreviation tokenize := (tokenizedValue domainSuffix Aws_REGION Aws_URL_SUFFIX).
Abbreviation tableFor := (materialize Aws_REGION).
Abbreviation resolve :=
  (deployTimeLookup domainSuffix Aws_REGION Aws_URL_SUFFIX TARGET_PARTITIONS).
Abbreviation uniformly := (uniform (tokenizedValue domainSuffix Aws_REGION Aws_URL_SUFFIX)).
Abbreviation uniform_or_not :=
  (uniform_dec domainSuffix Aws_REGION Aws_URL_SUFFIX).
Abbreviation resolve_uniform :=
  (deployTimeLookup_uniform domainSuffix Aws_REGION Aws_URL_SUFFIX TARGET_PARTITIONS).
Abbreviation resolve_not_uniform :=
  (deployTimeLookup_not_uniform domainSuffix Aws_REGION Aws_URL_SUFFIX TARGET_PARTITIONS).

Lemma tokenize_unmentioned key value :
  ¬ occurs key value →
  (∀ a suffix, domainSuffix key = Some (String a suffix) → ¬ occurs (String a suffix) value) →
  tokenize key value = value.
Proof.
  intros Hkey Hsuffix. unfold tokenizedValue.
  destruct (domainSuffix key) as [[|a suffix]|]; try by apply replaceAll_absent.
  rewrite (replaceAll_absent (String a suffix)) by (by apply Hsuffix).
  by apply replaceAll_absent.
Qed.

Lemma tokenize_template a b c key value :
  follows_template domainSuffix Aws_URL_SUFFIX a b c key value →
  tokenize key value = a +:+ Aws_REGION +:+ b +:+ Aws_URL_SUFFIX +:+ c.
Proof.
  intros (suffix & Hs & Hne & Hkey & Hfirst & Hsecond). unfold tokenizedValue. rewrite Hs.
  destruct suffix as [|x suffix]; [done|].
  rewrite (replaceAll_first_and_last _ _ _ _ _ Hne Hfirst).
  rewrite !JsFacts.app_assoc.
  by rewrite (replaceAll_first_and_last _ _ _ _ _ Hkey Hsecond).
Qed.

(** All values tokenize to [t]: the map is uniform and resolve returns [t]. *)
Lemma resolve_all_tokenize_to t factName lookupMap defaultValue stack :
  lookupMap ≠ [] →
  (∀ key value, (key, value) ∈ lookupMap → tokenize key value = t) →
  resolve factName lookupMap defaultValue stack = (stack, Return (Str t)).
Proof.
  intros Hne Hall. destruct lookupMap as [|[key0 value0] rest]; [done|].
  rewrite resolve_uniform.
  - rewrite (Hall key0 value0); [done|]. apply elem_of_cons. by left.
  - intros key value Hin. rewrite (Hall key value Hin).
    symmetry. apply Hall, elem_of_cons. by left.
Qed.

Lemma uniform_pairwise lookupMap :
  uniformly lookupMap ↔
  ∀ key value key' value', (key, value) ∈ lookupMap → (key', value') ∈ lookupMap →
    tokenize key value = tokenize key' value'.
Proof.
  destruct lookupMap as [|[key0 value0] rest]; simpl.
  - split; [|done]. intros _ ???? Hin. by apply elem_of_nil in Hin.
  - split.
    + intros H key value key' value' Hin Hin'. by rewrite (H _ _ Hin), (H _ _ Hin').
    + intros H key value Hin. apply H; [done|]. apply elem_of_cons. by left.
Qed.

Lemma uniform_Permutation lookupMap lookupMap' :
  lookupMap ≡ₚ lookupMap' → uniformly lookupMap → uniformly lookupMap'.
Proof.
  intros Hperm. rewrite !uniform_pairwise. intros H key value key' value' Hin Hin'.
  apply H; by rewrite Hperm.
Qed.

Lemma materialize_Permutation factName lookupMap lookupMap' stack :
  NoDup lookupMap.*1 → lookupMap ≡ₚ lookupMap' →
  tableFor factName lookupMap stack = tableFor factName lookupMap' stack.
Proof.
  intros Hnd Hperm. destruct (tryFindChild stack (mapId factName)) as [[m|o]|] eqn:E.
  - rewrite !(materialize_table _ _ _ _ _ E). by rewrite (setCells_Permutation _ _ _ _ Hnd Hperm).
  - rewrite !(materialize_other _ _ _ _ _ E).
    assert (bool_decide (lookupMap = []) = bool_decide (lookupMap' = [])) as ->; [|done].
    apply bool_decide_ext. split; intros ->.
    + by apply Permutation_nil_l in Hperm.
    + by apply Permutation_nil_r in Hperm.
  - rewrite !(materialize_absent _ _ _ _ E). by rewrite (setCells_Permutation _ _ _ _ Hnd Hperm).
Qed.

Lemma materialize_idem factName lookupMap stack :
  tableFor factName lookupMap (tableFor factName lookupMap stack).1 =
  tableFor factName lookupMap stack.
Proof.
  destruct (tryFindChild stack (mapId factName)) as [[m|o]|] eqn:E.
  - rewrite (materialize_table _ _ _ _ _ E). cbn [fst].
    erewrite materialize_table by (by eapply tryFindChild_updateChild_eq).
    by rewrite updateChild_twice, setCells_idem.
  - rewrite (materialize_other _ _ _ _ _ E). cbn [fst].
    by rewrite (materialize_other _ _ _ _ _ E).
  - rewrite (materialize_absent _ _ _ _ E). cbn [fst].
    erewrite materialize_table
      by (by rewrite tryFindChild_snoc, E, String.eqb_refl).
    by rewrite updateChild_snoc, setCells_idem.
Qed.

(** The table path raises no [Error] of its own. *)
Lemma materialize_no_Error factName lookupMap stack message :
  (tableFor factName lookupMap stack).2 ≠ Throw (Error message).
Proof.
  destruct (tryFindChild stack (mapId factName)) as [[m|o]|] eqn:E.
  - by rewrite (materialize_table _ _ _ _ _ E).
  - rewrite (materialize_other _ _ _ _ _ E). cbn [snd].
    destruct (_ || _); [|done]. by destruct (other_findInMap o).
  - by rewrite (materialize_absent _ _ _ _ E).
Qed.

(** What a child of the scope is after the table path. *)
Lemma materialize_child factName lookupMap stack id c :
  tryFindChild stack id = Some c →
  tryFindChild (tableFor factName lookupMap stack).1 id =
    Some (match c with
          | CfnMappingC m =>
              if decide (id = mapId factName)
              then CfnMappingC (setCells m (factKey factName) lookupMap)
              else c
          | OtherC _ => c
          end).
Proof.
  intros Hc. destruct (decide (id = mapId factName)) as [->|Hne].
  - destruct c as [m|o].
    + rewrite (materialize_table _ _ _ _ _ Hc). cbn [fst].
      by erewrite tryFindChild_updateChild_eq.
    + by rewrite (materialize_other _ _ _ _ _ Hc).
  - assert (tryFindChild (tableFor factName lookupMap stack).1 id = tryFindChild stack id) as ->.
    { destruct (tryFindChild stack (mapId factName)) as [[m|o]|] eqn:E.
      - rewrite (materialize_table _ _ _ _ _ E). by apply tryFindChild_updateChild_ne.
      - by rewrite (materialize_other _ _ _ _ _ E).
      - rewrite (materialize_absent _ _ _ _ E). cbn [fst].
        by rewrite tryFindChild_snoc, Hc. }
    rewrite Hc. by destruct c.
Qed.

(** X8: a value in which neither the key nor the key's registered domain
    suffix occurs is tokenized to itself. *)
Theorem tokenizer_leaves_unmentioned key value :
  ¬ occurs key value →
  (∀ a suffix, domainSuffix key = Some (String a suffix) → ¬ occurs (String a suffix) value) →
  tokenize key value = value.
Proof. apply tokenize_unmentioned. Qed.









End LookupMore.

(** * The further theorems at concrete inputs *)

Lemma not_occurs_by_search pat x : Js.breakAt pat x = None → ¬ occurs pat x.
Proof. apply breakAt_not_occurs. Qed.

Lemma first_and_last_by_search pat x pre post :
  Js.breakAt pat x = Some (pre, post) → Js.breakAt pat post = None →
  occurs_first_and_last pat x pre post.
Proof.
  intros H1 H2. split; [by apply breakAt_leftmost_occ | by apply breakAt_not_occurs].
Qed.

Lemma replaceAll_occurrence_witness :
  "eu" ≠ "" ∧ occurs "<REGION>" (replaceAll "svc.eu.example" "eu" "<REGION>").
Proof.
  assert ("eu" ≠ "") as Hpat by discriminate. split; [exact Hpat|].
  apply (replaceAll_occurrence "svc.eu.example" "eu" "<REGION>" Hpat).
  by exists "svc.", ".example".
Defined.

Lemma factName_decomposition_witness :
  factClass "Widget:alpha:x" = "Widget" ∧
  ¬ occurs ":" (factParam "Widget:alpha:x") ∧
  (factClass "Service" = "Service" ∧ factParam "Service" = "value").
Proof.
  split; [reflexivity|]. split.
  - apply (factName_decomposition "Widget:alpha:x"). by exists "Widget", "alpha:x".
  - apply (factName_decomposition "Service"). by apply not_occurs_by_search.
Defined.

Lemma factName_composition_witness :
  factClassParam "Widget:alpha:x" = ("Widget", "alpha") ∧
  mapId "Widget" = mapId "Widget:value".
Proof.
  destruct (factName_composition "Widget" "alpha" "x") as (_ & Hmore & _ & _ & _ & Hbare & _).
  - by apply not_occurs_by_search.
  - by apply not_occurs_by_search.
  - split; [exact Hmore | exact Hbare].
Defined.

Lemma mapId_first_letter_case_witness :
  mapId "widget:alpha" = mapId "Widget:alpha" ∧ mapId "widget:alpha" = "WidgetMap".
Proof.
  split; [|reflexivity].
  exact (proj1 (mapId_first_letter_case "w"%char "idget:alpha" eq_refl)).
Defined.

Lemma tokenizer_leaves_unmentioned_witness :
  Example.tokenize "eu" "literal" = "literal".
Proof.
  apply (tokenizer_leaves_unmentioned Example.domainSuffix Example.REGION Example.URL_SUFFIX).
  - by apply not_occurs_by_search.
  - intros a suffix H. unfold Example.domainSuffix in H. injection H as <- <-.
      by apply not_occurs_by_search.
Defined.







(** * The name of an imported role *)

Lemma last_split_loop sep x :
  sep ≠ "" →
  ∃ name pre,
    last (Js.split_loop sep x) = Some name ∧
    x = pre +:+ name ∧
    ¬ occurs sep name ∧
    (pre = "" ∨ ∃ p, pre = p +:+ sep).
Proof.
  intros Hsep. remember (String.length x) as n eqn:Hn. revert x Hn.
  induction n as [n IH] using lt_wf_ind. intros x ->.
  rewrite JsFacts.split_loop_step by done.
  destruct (Js.breakAt sep x) as [[T rest]|] eqn:E.
  - destruct (IH (String.length rest) (breakAt_shorter sep Hsep x T rest E) rest eq_refl)
      as (name & pre & Hlast & Hrest & Hfree & Hpre).
    exists name, (T +:+ sep +:+ pre). rewrite last_cons, Hlast. split; [done|].
    split; [|split; [done|]].
    + apply JsFacts.breakAt_Some in E. by rewrite E, Hrest, !JsFacts.app_assoc.
    + right. destruct Hpre as [->|[p ->]].
      * exists T. by rewrite JsFacts.app_nil_r.
      * exists (T +:+ sep +:+ p). by rewrite !JsFacts.app_assoc.
  - exists x, "". split; [done|]. split; [done|]. split; [|by left].
    by apply breakAt_not_occurs.
Qed.

(** X17: the name of a role imported by ARN is the text of the resource
    name after its last slash.  There always is one; it holds no slash;
    what stands before it is empty or ends with a slash; and a resource
    name without a slash is the role name itself. *)
Theorem roleName_after_last_slash resourceName :
  (∃ name pre,
     roleName resourceName = Some name ∧
     resourceName = pre +:+ name ∧
     ¬ occurs "/" name ∧
     (pre = "" ∨ ∃ p, pre = p +:+ "/")) ∧
  (¬ occurs "/" resourceName → roleName resourceName = Some resourceName).
Proof.
  unfold roleName, Js.split. split; [by apply last_split_loop|].
  intros H%breakAt_not_occurs. rewrite JsFacts.split_loop_step by done. by rewrite H.
Qed.

(** The role names of the two shapes of service-role ARNs named in
    [fromRoleArn]. *)
Example roleName_service_roles :
  roleName "service-role/MyRole" = Some "MyRole" ∧
  roleName "service-role/servicename.amazonaws.com/service-role/MyRole" = Some "MyRole" ∧
  roleName "MyRole" = Some "MyRole" ∧
  roleName "AdminRoles/" = Some "".
Proof. vm_compute. by repeat split. Qed.

Lemma roleName_after_last_slash_witness : roleName "MyRole" = Some "MyRole".
Proof.
  apply (roleName_after_last_slash "MyRole"). by apply not_occurs_by_search.
Defined.
